(** * Memoized Fibonacci ([fib_module.py], [main.py])

    A shallow embedding of the two Python source files and the proofs of
    the properties stated about them.

    Modelling decisions, all taken from the source:
    - Python integers are unbounded: they are [Z], without wrap-around.
    - [memo] is a Python dictionary, a mutable object that every
      activation of [fib] shares by reference.  Dictionaries live in an
      object store ([heap]), a reference is an index into it, and the
      parameter [memo] is [None] or a reference ([option loc]).
    - [fib] is written in a small monad that threads the store, may raise
      an exception, and records the operations performed on dictionaries
      together with every recursive call and return ([event]).
    - The recursion is not structural.  The first argument of [fib]
      ([depth]) is the number of nested activations the interpreter still
      allows; CPython raises [RecursionError] when that budget is used up.
      Results about returned values say how much budget is enough. *)

From stdpp Require Import base gmap list strings pretty.
From Stdlib Require Import ZArith Lia.

Local Open Scope Z_scope.

(** ** The Fibonacci numbers, as the recurrence defines them *)

(** F(0)=0, F(1)=1, F(n)=F(n-1)+F(n-2). *)
Fixpoint F (k : nat) : Z :=
  match k with
  | O => 0
  | S k' =>
      match k' with
      | O => 1
      | S k'' => F k' + F k''
      end
  end.

Definition Fib (n : Z) : Z := F (Z.to_nat n).

(** ** Objects, exceptions, events *)

Abbreviation loc := nat.

Abbreviation dict := (gmap Z Z).
Abbreviation heap := (list (gmap Z Z)).

Record world := World { objects : heap; stdout : string }.

(** What a statement can raise.  [BadReference] stands for the use of a
    reference that is not in the store; Python has no such references,
    and the statements below assume a supplied [memo] is in the store. *)
Inductive exn :=
| KeyError (k : Z)
| RecursionError
| BadReference (l : loc).

Inductive result (A : Type) :=
| Ok (a : A)
| Raise (e : exn).
Arguments Ok {A} a.
Arguments Raise {A} e.

(** What a run records: a recursive call [fib(n, memo)] being issued and
    its return with value [v], the creation of a dictionary, and the
    three operations on a dictionary, [k in memo] with its answer,
    [memo[k]] with the value read, and [memo[k] = v]. *)
Inductive event :=
| Call (n : Z)
| Return (v : Z)
| Alloc (l : loc)
| Contains (l : loc) (k : Z) (b : bool)
| Load (l : loc) (k v : Z)
| Store (l : loc) (k v : Z).

(** The line terminator that [print] appends. *)
Definition newline : string := String (Ascii.ascii_of_nat 10) EmptyString.

(** ** The monad of Python statements *)

Module Py.

Definition M (A : Type) : Type := world → result A * world * list event.

Definition ret {A} (a : A) : M A := λ w, (Ok a, w, []).

Definition raise {A} (e : exn) : M A := λ w, (Raise e, w, []).

Definition bind {A B} (m : M A) (f : A → M B) : M B := λ w,
  match m w with
  | (Ok a, w1, t1) =>
      match f a w1 with
      | (r, w2, t2) => (r, w2, t1 ++ t2)
      end
  | (Raise e, w1, t1) => (Raise e, w1, t1)
  end.

Definition tick (e : event) : M unit := λ w, (Ok tt, w, [e]).

(** [{}]: a new empty dictionary, at a reference nothing else holds. *)
Definition new_dict : M loc := λ w,
  let l := length (objects w) in
  (Ok l, World (objects w ++ [∅]) (stdout w), [Alloc l]).

(** [k in memo] *)
Definition contains (l : loc) (k : Z) : M bool := λ w,
  match objects w !! l with
  | Some d =>
      let b := bool_decide (is_Some (d !! k)) in
      (Ok b, w, [Contains l k b])
  | None => (Raise (BadReference l), w, [])
  end.

(** [memo[k]] as an expression: [KeyError] when the key is absent. *)
Definition getitem (l : loc) (k : Z) : M Z := λ w,
  match objects w !! l with
  | Some d =>
      match d !! k with
      | Some v => (Ok v, w, [Load l k v])
      | None => (Raise (KeyError k), w, [])
      end
  | None => (Raise (BadReference l), w, [])
  end.

(** [memo[k] = v] *)
Definition setitem (l : loc) (k v : Z) : M unit := λ w,
  match objects w !! l with
  | Some d =>
      (Ok tt, World (<[l := <[k := v]> d]> (objects w)) (stdout w),
       [Store l k v])
  | None => (Raise (BadReference l), w, [])
  end.

(** [print(s)] *)
Definition print (s : string) : M unit := λ w,
  (Ok tt, World (objects w) (stdout w +:+ s +:+ newline), []).

(** A call site: the call and its return are recorded around the callee. *)
Definition call (n : Z) (callee : M Z) : M Z :=
  bind (tick (Call n)) (λ _,
  bind callee (λ v,
  bind (tick (Return v)) (λ _, ret v))).

End Py.

#[global] Instance py_ret : MRet Py.M := @Py.ret.
#[global] Instance py_bind : MBind Py.M := λ A B f m, Py.bind m f.

(** ** [fib_module.py] *)

Fixpoint fib (depth : nat) (n : Z) (memo : option loc) : Py.M Z :=
  match depth with
  | O => Py.raise RecursionError
  | S depth =>
      memo ← match memo with
             | None => Py.new_dict
             | Some l => mret l
             end;
      if n <=? 1 then mret n
      else
        hit ← Py.contains memo n;
        if hit : bool then Py.getitem memo n
        else
          x ← Py.call (n - 1) (fib depth (n - 1) (Some memo));
          y ← Py.call (n - 2) (fib depth (n - 2) (Some memo));
          Py.setitem memo n (x + y);;
          Py.getitem memo n
  end.

(** ** [main.py] *)

Definition main (depth : nat) : Py.M unit :=
  let n := 16 in
  result ← fib depth n None;
  Py.print ("The " +:+ pretty n +:+ "th Fibonacci number is: "
            +:+ pretty result).

(** Running [main.py] as a script from an empty store: what is written to
    standard output, and the exit status (0, or 1 after an uncaught
    exception). *)
Definition run_script (depth : nat) : string * Z :=
  match main depth (World [] "") with
  | (Ok _, w, _) => (stdout w, 0)
  | (Raise _, w, _) => (stdout w, 1)
  end.

(** Projections of a run. *)
Definition outcome {A} (x : result A * world * list event) : result A := x.1.1.
Definition final {A} (x : result A * world * list event) : world := x.1.2.
Definition events {A} (x : result A * world * list event) : list event := x.2.

(** ** The runs of [fib] on one dictionary

    Every activation below a top-level call works on the same dictionary
    object, so a run is described by the contents of that dictionary
    before and after.  [fib_run l depth n d r d' tr]: with [depth]
    activations allowed, [fib(n, memo)] on the dictionary [d] stored at
    reference [l] ends with [r], leaves [d'] there and emits [tr].
    [fib_Some] and [fib_None] below show that these are the runs of
    [fib]; the relation is the induction principle of the proofs. *)

Inductive fib_run (l : loc) :
  nat → Z → dict → result Z → dict → list event → Prop :=
| run_overflow n d :
    fib_run l 0 n d (Raise RecursionError) d []
| run_base depth n d :
    n ≤ 1 →
    fib_run l (S depth) n d (Ok n) d []
| run_hit depth n d v :
    1 < n → d !! n = Some v →
    fib_run l (S depth) n d (Ok v) d [Contains l n true; Load l n v]
| run_fail1 depth n d e d1 t1 :
    1 < n → d !! n = None →
    fib_run l depth (n - 1) d (Raise e) d1 t1 →
    fib_run l (S depth) n d (Raise e) d1
      (Contains l n false :: Call (n - 1) :: t1)
| run_fail2 depth n d x d1 t1 e d2 t2 :
    1 < n → d !! n = None →
    fib_run l depth (n - 1) d (Ok x) d1 t1 →
    fib_run l depth (n - 2) d1 (Raise e) d2 t2 →
    fib_run l (S depth) n d (Raise e) d2
      (Contains l n false :: Call (n - 1) :: t1 ++
       Return x :: Call (n - 2) :: t2)
| run_miss depth n d x d1 t1 y d2 t2 :
    1 < n → d !! n = None →
    fib_run l depth (n - 1) d (Ok x) d1 t1 →
    fib_run l depth (n - 2) d1 (Ok y) d2 t2 →
    fib_run l (S depth) n d (Ok (x + y)) (<[n := x + y]> d2)
      (Contains l n false :: Call (n - 1) :: t1 ++
       Return x :: Call (n - 2) :: t2 ++
       [Return y; Store l n (x + y); Load l n (x + y)]).

(** ** Reading a trace *)

(** The dictionary after the stores of a trace. *)
Fixpoint replay (tr : list event) (d : dict) : dict :=
  match tr with
  | [] => d
  | Store _ k v :: tr => replay tr (<[k := v]> d)
  | _ :: tr => replay tr d
  end.

(** A trace that only inserts into the dictionary at [l], started on
    [d]: every store is to a key that is absent at that moment, every
    membership test and every read reports what the dictionary holds
    at that moment, and no other dictionary is touched. *)
Fixpoint insert_only (l : loc) (tr : list event) (d : dict) : Prop :=
  match tr with
  | [] => True
  | Store l' k v :: tr =>
      l' = l ∧ d !! k = None ∧ insert_only l tr (<[k := v]> d)
  | Load l' k v :: tr =>
      l' = l ∧ d !! k = Some v ∧ insert_only l tr d
  | Contains l' k b :: tr =>
      l' = l ∧ b = bool_decide (is_Some (d !! k)) ∧ insert_only l tr d
  | _ :: tr => insert_only l tr d
  end.

(** The recursive calls issued in a trace. *)
Fixpoint recursive_calls (tr : list event) : nat :=
  match tr with
  | [] => 0
  | Call _ :: tr => S (recursive_calls tr)
  | _ :: tr => recursive_calls tr
  end.

(** The stack of arguments of the running activations (innermost first)
    after a trace; [None] when some call does not pass an argument
    strictly below its caller's, or a return has no call to answer. *)
Fixpoint nest (stk : list Z) (tr : list event) : option (list Z) :=
  match tr with
  | [] => Some stk
  | Call k :: tr =>
      match stk with
      | a :: _ => if decide (k < a) then nest (k :: stk) tr else None
      | [] => None
      end
  | Return _ :: tr =>
      match stk with
      | _ :: stk' => nest stk' tr
      | [] => None
      end
  | _ :: tr => nest stk tr
  end.

(** ** Vocabulary of the statements *)

(** Nested activations that are enough for [fib(n)]: the chain
    [fib(n)], [fib(n - 1)], ..., [fib(1)], or the single activation of a
    base case. *)
Definition frames (n : Z) : nat := Z.to_nat (Z.max 1 n).

(** Entries with keys in [[2, n]] hold the Fibonacci numbers. *)
Definition correct_upto (n : Z) (d : dict) : Prop :=
  ∀ k v, 2 ≤ k ≤ n → d !! k = Some v → v = Fib k.

(** A supplied [memo] refers to a dictionary of the store. *)
Definition live (memo : option loc) (w : world) : Prop :=
  match memo with
  | Some l => is_Some (objects w !! l)
  | None => True
  end.

(** The dictionary a call works on: the supplied one, or a new empty one
    at the next free reference. *)
Definition cache_at (memo : option loc) (h : heap) : option (loc * dict) :=
  match memo with
  | Some l => d ← h !! l; Some (l, d)
  | None => Some (length h, ∅)
  end.

(** The stores performed in a trace. *)
Fixpoint stores (tr : list event) : nat :=
  match tr with
  | [] => 0
  | Store _ _ _ :: tr => S (stores tr)
  | _ :: tr => stores tr
  end.

(** What [fib(j, memo)] yields without recursion: [j] itself in the base
    case, the entry under [j] otherwise. *)
Definition known (d : dict) (j : Z) : option Z :=
  if decide (j ≤ 1) then Some j else d !! j.


(** * Proofs *)

(** ** The primitive operations on a live reference *)

Section Primitives.
Context (l : loc) (h : heap) (out : string).
Hypothesis Hlive : (l < length h)%nat.

Lemma lookup_live (d : dict) : <[l := d]> h !! l = Some d.
Proof using Hlive. by apply list_lookup_insert_eq. Qed.

Lemma contains_live (d : dict) k :
  Py.contains l k (World (<[l := d]> h) out)
  = (Ok (bool_decide (is_Some (d !! k))), World (<[l := d]> h) out,
     [Contains l k (bool_decide (is_Some (d !! k)))]).
Proof using Hlive. unfold Py.contains; simpl. by rewrite lookup_live. Qed.

Lemma getitem_live (d : dict) k v :
  d !! k = Some v →
  Py.getitem l k (World (<[l := d]> h) out)
  = (Ok v, World (<[l := d]> h) out, [Load l k v]).
Proof using Hlive.
  intros Hk. unfold Py.getitem; simpl. by rewrite lookup_live, Hk.
Qed.

Lemma setitem_live (d : dict) k v :
  Py.setitem l k v (World (<[l := d]> h) out)
  = (Ok tt, World (<[l := <[k := v]> d]> h) out, [Store l k v]).
Proof using Hlive.
  unfold Py.setitem; simpl.
  by rewrite lookup_live, list_insert_insert_eq.
Qed.
End Primitives.

(** [fib] on a supplied dictionary performs one of the runs of [fib_run],
    and touches no other object and not the output. *)
Lemma fib_Some_live depth : ∀ n (l : loc) h out (d : dict),
  (l < length h)%nat →
  ∃ r d' tr,
    fib depth n (Some l) (World (<[l := d]> h) out)
    = (r, World (<[l := d']> h) out, tr)
    ∧ fib_run l depth n d r d' tr.
Proof.
  induction depth as [|depth IH]; intros n l h out d Hl.
  { exists (Raise RecursionError), d, []. split; [done | constructor]. }
  cbn [fib]. unfold mbind, py_bind, mret, py_ret, Py.bind, Py.ret.
  destruct (Z.leb_spec n 1) as [Hn|Hn].
  { exists (Ok n), d, []. split; [done | by constructor]. }
  rewrite contains_live by done.
  destruct (d !! n) as [v|] eqn:Hdn.
  { rewrite bool_decide_eq_true_2 by eauto.
    rewrite (getitem_live _ _ _ Hl _ _ _ Hdn).
    exists (Ok v), d, [Contains l n true; Load l n v].
    split; [done | by constructor]. }
  rewrite bool_decide_eq_false_2 by (intros [? ?]; congruence).
  unfold Py.call, Py.bind, Py.tick, Py.ret.
  destruct (IH (n - 1) l h out d Hl) as (r1 & d1 & t1 & -> & Hr1).
  destruct r1 as [x|e].
  2:{ exists (Raise e), d1, (Contains l n false :: Call (n - 1) :: t1).
      split; [done | by constructor]. }
  destruct (IH (n - 2) l h out d1 Hl) as (r2 & d2 & t2 & -> & Hr2).
  destruct r2 as [y|e].
  2:{ exists (Raise e), d2,
        (Contains l n false :: Call (n - 1) :: t1 ++
         Return x :: Call (n - 2) :: t2).
      split; [|by econstructor].
      simpl. by rewrite <- !app_assoc. }
  rewrite setitem_live by done.
  rewrite (getitem_live _ _ _ Hl _ n (x + y)) by apply lookup_insert_eq.
  eexists (Ok (x + y)), _, _. split; [|by econstructor].
  simpl. by rewrite <- !app_assoc.
Qed.

Lemma fib_Some depth n (l : loc) h out (d : dict) :
  h !! l = Some d →
  ∃ r d' tr,
    fib depth n (Some l) (World h out) = (r, World (<[l := d']> h) out, tr)
    ∧ fib_run l depth n d r d' tr.
Proof.
  intros Hd.
  pose proof (lookup_lt_Some _ _ _ Hd) as Hl.
  destruct (fib_Some_live depth n l h out d Hl) as (r & d' & tr & Hrun).
  rewrite (list_insert_id h l d Hd) in Hrun. eauto.
Qed.

(** Omitting [memo] is: allocate an empty dictionary, then run on it. *)
Lemma fib_None_alloc depth n h out :
  fib (S depth) n None (World h out)
  = let '(r, w, tr) :=
      fib (S depth) n (Some (length h)) (World (h ++ [∅]) out) in
    (r, w, Alloc (length h) :: tr).
Proof.
  cbn [fib]. unfold mbind, py_bind, mret, py_ret, Py.bind, Py.ret,
    Py.new_dict.
  cbn [objects stdout].
  match goal with
  | |- (let (_, _) := ?X in _) = _ => destruct X as [[r w] tr]
  end.
  reflexivity.
Qed.

Lemma insert_last (h : heap) (d d' : dict) :
  <[length h := d']> (h ++ [d]) = h ++ [d'].
Proof.
  rewrite insert_app_r_alt by lia. by rewrite Nat.sub_diag.
Qed.

Lemma fib_None depth n h out :
  ∃ r d' tr,
    fib (S depth) n None (World h out)
    = (r, World (h ++ [d']) out, Alloc (length h) :: tr)
    ∧ fib_run (length h) (S depth) n ∅ r d' tr.
Proof.
  rewrite fib_None_alloc.
  destruct (fib_Some (S depth) n (length h) (h ++ [∅]) out ∅)
    as (r & d' & tr & -> & Hrun).
  { by rewrite lookup_app_r, Nat.sub_diag by lia. }
  exists r, d', tr. by rewrite insert_last.
Qed.

(** ** What a run does to the dictionary *)

Lemma Fib_rec n : 2 ≤ n → Fib n = Fib (n - 1) + Fib (n - 2).
Proof.
  intros Hn. unfold Fib.
  replace (Z.to_nat n) with (S (S (Z.to_nat (n - 2)))) by lia.
  replace (Z.to_nat (n - 1)) with (S (Z.to_nat (n - 2))) by lia.
  reflexivity.
Qed.

Section Runs.
Context {l : loc}.
Implicit Types (d : dict) (r : result Z) (tr : list event).

(** Only keys in [[2, n]] can change. *)
Lemma run_frame depth n d r d' tr :
  fib_run l depth n d r d' tr →
  ∀ k, n < k ∨ k < 2 → d' !! k = d !! k.
Proof.
  induction 1 as
    [ | | | ? n d e d1 t1 ? ? _ IH1
      | ? n d x d1 t1 e d2 t2 ? ? _ IH1 _ IH2
      | ? n d x d1 t1 y d2 t2 ? ? _ IH1 _ IH2 ];
    intros k Hk; try done.
  - apply IH1; lia.
  - rewrite IH2, IH1; [done | lia..].
  - rewrite lookup_insert_ne by lia. rewrite IH2, IH1; [done | lia..].
Qed.

(** Entries are only ever added. *)
Lemma run_mono depth n d r d' tr :
  fib_run l depth n d r d' tr → d ⊆ d'.
Proof.
  induction 1 as
    [ | | | ? n d e d1 t1 ? ? _ IH1
      | ? n d x d1 t1 e d2 t2 ? ? _ IH1 _ IH2
      | ? n d x d1 t1 y d2 t2 ? Hdn H1 IH1 H2 IH2 ]; try done.
  - by etrans.
  - etrans; [exact IH1|]. etrans; [exact IH2|].
    apply insert_subseteq.
    rewrite (run_frame _ _ _ _ _ _ H2), (run_frame _ _ _ _ _ _ H1);
      [done | lia..].
Qed.

(** With [frames n] activations allowed, the run returns a value. *)
Lemma run_returns depth n d r d' tr :
  fib_run l depth n d r d' tr →
  (frames n ≤ depth)%nat → ∃ v, r = Ok v.
Proof.
  unfold frames.
  induction 1 as
    [ | | | ? n d e d1 t1 ? ? _ IH1
      | ? n d x d1 t1 e d2 t2 ? ? _ IH1 _ IH2
      | ? n d x d1 t1 y d2 t2 ? ? _ IH1 _ IH2 ];
    intros Hdepth; eauto.
  - lia.
  - destruct IH1 as [? ?]; [lia | done].
  - destruct IH2 as [? ?]; [lia | done].
Qed.

(** A returned value is, from 2 on, the entry stored under [n]. *)
Lemma run_stored depth n d v d' tr :
  fib_run l depth n d (Ok v) d' tr → 2 ≤ n → d' !! n = Some v.
Proof.
  inversion 1; subst; intros Hn; [lia | done | apply lookup_insert_eq].
Qed.

(** Correct entries in, correct entries and a correct value out. *)
Lemma run_correct depth n d r d' tr :
  fib_run l depth n d r d' tr →
  correct_upto n d →
  correct_upto n d'
  ∧ ∀ v, r = Ok v → (n ≤ 1 → v = n) ∧ (0 ≤ n → v = Fib n).
Proof.
  induction 1 as
    [ | ? n d Hn | ? n d v Hn Hdn | ? n d e d1 t1 Hn Hdn H1 IH1
      | ? n d x d1 t1 e d2 t2 Hn Hdn H1 IH1 H2 IH2
      | ? n d x d1 t1 y d2 t2 Hn Hdn H1 IH1 H2 IH2 ];
    intros Hd.
  - done.
  - split; [done|]. intros v [= <-]. split; [done|].
    intros H0. assert (n = 0 ∨ n = 1) as [-> | ->] by lia; done.
  - split; [done|]. intros ? [= <-]. split; [lia|].
    intros _. apply (Hd n); [lia | done].
  - split; [|done]. intros k v Hk Hv.
    destruct (decide (k = n)) as [-> | Hne].
    + rewrite (run_frame _ _ _ _ _ _ H1) in Hv by lia. congruence.
    + destruct IH1 as [IH1 _].
      * intros ? ? ?. apply Hd. lia.
      * apply (IH1 k); [lia | done].
  - assert (correct_upto (n - 1) d) as Hd'
      by (intros ? ? ?; apply Hd; lia).
    destruct (IH1 Hd') as [Hd1 _].
    destruct IH2 as [Hd2 _]; [intros ? ? ?; apply Hd1; lia|].
    split; [|done]. intros k v Hk Hv.
    destruct (decide (k = n)) as [-> | Hne].
    { rewrite (run_frame _ _ _ _ _ _ H2),
        (run_frame _ _ _ _ _ _ H1) in Hv by lia. congruence. }
    destruct (decide (k = n - 1)) as [-> | Hne'].
    { rewrite (run_frame _ _ _ _ _ _ H2) in Hv by lia.
      apply (Hd1 (n - 1)); [lia | done]. }
    apply (Hd2 k); [lia | done].
  - assert (correct_upto (n - 1) d) as Hd'
      by (intros ? ? ?; apply Hd; lia).
    destruct (IH1 Hd') as [Hd1 Hx].
    destruct IH2 as [Hd2 Hy]; [intros ? ? ?; apply Hd1; lia|].
    destruct (Hx x eq_refl) as [Hx1 Hx2].
    destruct (Hy y eq_refl) as [Hy1 Hy2].
    assert (x + y = Fib n) as Hxy.
    { rewrite Fib_rec by lia. rewrite <- Hx2 by lia.
      destruct (decide (n = 2)) as [-> | Hn2].
      - rewrite Hy1 by lia. reflexivity.
      - rewrite <- Hy2 by lia. reflexivity. }
    split.
    + intros k v Hk Hv.
      destruct (decide (k = n)) as [-> | Hne].
      { rewrite lookup_insert_eq in Hv. congruence. }
      rewrite lookup_insert_ne in Hv by done.
      destruct (decide (k = n - 1)) as [-> | Hne'].
      { rewrite (run_frame _ _ _ _ _ _ H2) in Hv by lia.
        apply (Hd1 (n - 1)); [lia | done]. }
      apply (Hd2 k); [lia | done].
    + intros v [= <-]. split; [lia | done].
Qed.

(** From a dictionary without keys in [[2, n]], all of them are filled. *)
Lemma run_fills depth n d v d' tr :
  fib_run l depth n d (Ok v) d' tr →
  (∀ k, 2 ≤ k ≤ n → d !! k = None) →
  ∀ k, 2 ≤ k ≤ n → is_Some (d' !! k).
Proof.
  remember (Ok v) as r eqn:Hr. intros Hrun. revert v Hr.
  induction Hrun as
    [ | ? n d Hn | ? n d v Hn Hdn | ? n d e d1 t1 Hn Hdn H1 IH1
      | ? n d x d1 t1 e d2 t2 Hn Hdn H1 IH1 H2 IH2
      | ? n d x d1 t1 y d2 t2 Hn Hdn H1 IH1 H2 IH2 ];
    intros v' Hr Hd k Hk; try done.
  - lia.
  - rewrite Hd in Hdn by lia. done.
  - destruct (decide (k = n)) as [-> | Hne].
    { rewrite lookup_insert_eq. eauto. }
    rewrite lookup_insert_ne by done.
    destruct (IH1 x eq_refl) with (k := k) as [w Hw];
      [intros; apply Hd; lia | lia |].
    exists w. eapply lookup_weaken; [exact Hw|].
    by eapply run_mono.
Qed.
End Runs.

(** ** What a run records in its trace *)

Lemma replay_app t1 t2 (d : dict) :
  replay (t1 ++ t2) d = replay t2 (replay t1 d).
Proof.
  revert d. induction t1 as [|[] t1 IH]; intros d; simpl; auto.
Qed.

Lemma insert_only_app l t1 t2 (d : dict) :
  insert_only l (t1 ++ t2) d
  ↔ insert_only l t1 d ∧ insert_only l t2 (replay t1 d).
Proof.
  revert d. induction t1 as [|[] t1 IH]; intros d; simpl;
    rewrite ?IH; tauto.
Qed.

Lemma insert_only_mono l tr (d : dict) :
  insert_only l tr d → d ⊆ replay tr d.
Proof.
  revert d. induction tr as [|e tr IH]; intros d; [done|].
  destruct e; simpl; try apply IH.
  - intros (_ & _ & Htr). by apply IH.
  - intros (_ & _ & Htr). by apply IH.
  - intros (_ & Hk & Htr). etrans; [|by apply IH].
    by apply insert_subseteq.
Qed.

Lemma recursive_calls_app t1 t2 :
  recursive_calls (t1 ++ t2)
  = (recursive_calls t1 + recursive_calls t2)%nat.
Proof.
  induction t1 as [|[] t1 IH]; simpl; auto.
Qed.

Lemma nest_app t1 t2 : ∀ stk,
  nest stk (t1 ++ t2) = nest stk t1 ≫= λ stk', nest stk' t2.
Proof.
  induction t1 as [|[] t1 IH]; intros stk; simpl; auto.
  - destruct stk as [|a stk]; [done|]. case_decide; [apply IH | done].
  - destruct stk as [|a stk]; [done | apply IH].
Qed.

Section Traces.
Context {l : loc}.
Implicit Types (d : dict) (r : result Z) (tr : list event).

(** The trace of a run only inserts, and replaying it gives the final
    dictionary. *)
Lemma run_trace depth n d r d' tr :
  fib_run l depth n d r d' tr →
  insert_only l tr d ∧ replay tr d = d'.
Proof.
  induction 1 as
    [ | ? n d Hn | ? n d v Hn Hdn | ? n d e d1 t1 Hn Hdn H1 IH1
      | ? n d x d1 t1 e d2 t2 Hn Hdn H1 IH1 H2 IH2
      | ? n d x d1 t1 y d2 t2 Hn Hdn H1 IH1 H2 IH2 ].
  - done.
  - done.
  - simpl. rewrite Hdn. by rewrite bool_decide_eq_true_2 by eauto.
  - destruct IH1 as [IH1 <-]. simpl.
    rewrite Hdn.
    by rewrite bool_decide_eq_false_2 by (intros [? ?]; done).
  - destruct IH1 as [IH1 <-], IH2 as [IH2 <-]. simpl.
    rewrite insert_only_app, replay_app. simpl. rewrite Hdn.
    by rewrite bool_decide_eq_false_2 by (intros [? ?]; done).
  - destruct IH1 as [IH1 E1], IH2 as [IH2 E2].
    assert (d2 !! n = None) as Hfresh.
    { rewrite (run_frame _ _ _ _ _ _ H2), (run_frame _ _ _ _ _ _ H1);
        [done | lia..]. }
    simpl. rewrite insert_only_app, replay_app. simpl.
    rewrite insert_only_app, replay_app. simpl.
    rewrite E1, E2, Hdn, Hfresh, lookup_insert_eq.
    by rewrite bool_decide_eq_false_2 by (intros [? ?]; done).
Qed.

(** Calls and returns are matched, and every call passes an argument
    strictly below its caller's. *)
Lemma run_nest depth n d r d' tr :
  fib_run l depth n d r d' tr →
  ∀ stk,
    match r with
    | Ok _ => nest (n :: stk) tr = Some (n :: stk)
    | Raise _ => is_Some (nest (n :: stk) tr)
    end.
Proof.
  induction 1 as
    [ | ? n d Hn | ? n d v Hn Hdn | ? n d e d1 t1 Hn Hdn H1 IH1
      | ? n d x d1 t1 e d2 t2 Hn Hdn H1 IH1 H2 IH2
      | ? n d x d1 t1 y d2 t2 Hn Hdn H1 IH1 H2 IH2 ];
    intros stk; simpl; eauto.
  - rewrite decide_True by lia. apply IH1.
  - rewrite decide_True by lia. rewrite nest_app, IH1. simpl.
    rewrite decide_True by lia. apply IH2.
  - rewrite decide_True by lia. rewrite nest_app, IH1. simpl.
    rewrite decide_True by lia. rewrite nest_app, IH2. done.
Qed.
End Traces.

(** Consequences of [insert_only], read off the positions in a trace. *)
Section InsertOnly.
Context (l : loc) (tr : list event) (d : dict).
Hypothesis Htr : insert_only l tr d.

Lemma store_is_fresh t1 l' k v t2 :
  tr = t1 ++ Store l' k v :: t2 →
  l' = l ∧ replay t1 d !! k = None.
Proof using Htr.
  intros ->. apply insert_only_app in Htr as [_ H]. simpl in H. tauto.
Qed.

Lemma prefix_grows t1 t2 :
  tr = t1 ++ t2 → d ⊆ replay t1 d ∧ replay t1 d ⊆ replay tr d.
Proof using Htr.
  intros ->. apply insert_only_app in Htr as [H1 H2].
  rewrite replay_app. split; by eapply insert_only_mono.
Qed.

Lemma stored_then (t1 : list event) l1 k v t2 (e : event) t3 :
  tr = t1 ++ Store l1 k v :: t2 ++ e :: t3 →
  replay t2 (<[k := v]> (replay t1 d)) !! k = Some v
  ∧ insert_only l (e :: t3) (replay t2 (<[k := v]> (replay t1 d))).
Proof using Htr.
  intros ->. apply insert_only_app in Htr as [_ H]. simpl in H.
  destruct H as (_ & _ & H).
  apply insert_only_app in H as [H2 H3]. split; [|done].
  eapply lookup_weaken; [apply lookup_insert_eq|].
  by eapply insert_only_mono.
Qed.

Lemma load_after_store t1 l1 k v t2 l2 w t3 :
  tr = t1 ++ Store l1 k v :: t2 ++ Load l2 k w :: t3 → w = v.
Proof using Htr.
  intros E. destruct (stored_then _ _ _ _ _ _ _ E) as [Hv H].
  simpl in H. destruct H as (_ & Hw & _). congruence.
Qed.

Lemma store_once t1 l1 k v t2 l2 w t3 :
  tr = t1 ++ Store l1 k v :: t2 ++ Store l2 k w :: t3 → False.
Proof using Htr.
  intros E. destruct (stored_then _ _ _ _ _ _ _ E) as [Hv H].
  simpl in H. destruct H as (_ & Hw & _). congruence.
Qed.
End InsertOnly.

(** ** The outcome does not depend on where the dictionary lives *)

Lemma run_det l depth n (d : dict) r d' tr :
  fib_run l depth n d r d' tr →
  ∀ l2 r2 d2 tr2, fib_run l2 depth n d r2 d2 tr2 → r2 = r ∧ d2 = d'.
Proof.
  induction 1 as
    [ | ? n d Hn | ? n d v Hn Hdn | ? n d e d1 t1 Hn Hdn H1 IH1
      | ? n d x d1 t1 e d2 t2 Hn Hdn H1 IH1 H2 IH2
      | ? n d x d1 t1 y d2 t2 Hn Hdn H1 IH1 H2 IH2 ];
    intros l2 r2 d2' tr2 H'; inversion H'; subst;
    try lia; try congruence; try done;
    repeat match goal with
      | IH : ∀ l2 r2 d2 tr2, fib_run l2 ?dep ?m ?d0 r2 d2 tr2 → _,
        H : fib_run _ ?dep ?m ?d0 _ _ _ |- _ =>
          apply IH in H; destruct H; simplify_eq
      end;
    split; congruence.
Qed.

(** ** Counting recursive calls *)

Section Calls.
Context {l : loc}.
Implicit Types (d : dict) (r : result Z) (tr : list event).

(** A base case or a hit returns at once. *)
Lemma run_at_once depth n d v d' tr :
  fib_run l depth n d (Ok v) d' tr →
  n ≤ 1 ∨ is_Some (d !! n) →
  recursive_calls tr = 0%nat ∧ d' = d.
Proof.
  inversion 1; subst; intros [Hn | [w Hw]];
    try done; try lia; congruence.
Qed.

(** After a miss at [n], the entry for [n - 1] is there as well. *)
Lemma run_miss_below depth n d v d' tr :
  fib_run l depth n d (Ok v) d' tr →
  d !! n = None → 3 ≤ n → is_Some (d' !! (n - 1)).
Proof.
  inversion 1 as
    [ | | | | | ? ? ? x d1 t1 y d2 t2 Hn Hdn H1 H2 ];
    subst; intros Hmiss H3; [lia | congruence |].
  rewrite lookup_insert_ne by lia.
  exists x. eapply lookup_weaken; [|by eapply run_mono].
  eapply run_stored; [done | lia].
Qed.

(** After [fib(n - 1)] missed or hit the base case, [fib(n - 2)]
    returns at once. *)
Lemma second_call_at_once depth n d x d1 t1 y d2 t2 :
  fib_run l depth (n - 1) d (Ok x) d1 t1 →
  fib_run l depth (n - 2) d1 (Ok y) d2 t2 →
  n - 1 ≤ 1 ∨ d !! (n - 1) = None →
  recursive_calls t2 = 0%nat ∧ d2 = d1.
Proof.
  intros H1 H2 Hcase. eapply run_at_once; [exact H2|].
  destruct (decide (n - 2 ≤ 1)) as [|Hbig]; [by left | right].
  destruct Hcase as [? | Hmiss]; [lia|].
  replace (n - 2) with (n - 1 - 1) by lia.
  eapply run_miss_below; [exact H1 | done | lia].
Qed.

(** No cache can make [fib(n)] issue more than [2 (n - 1)] calls. *)
Lemma run_calls_le depth n d r d' tr :
  fib_run l depth n d r d' tr →
  match r with
  | Ok _ => (recursive_calls tr ≤ Z.to_nat (2 * (n - 1)))%nat
  | Raise _ => True
  end.
Proof.
  induction 1 as
    [ | ? n d Hn | ? n d v Hn Hdn | ? n d e d1 t1 Hn Hdn H1 IH1
      | ? n d x d1 t1 e d2 t2 Hn Hdn H1 IH1 H2 IH2
      | ? n d x d1 t1 y d2 t2 Hn Hdn H1 IH1 H2 IH2 ];
    simpl; try done; try lia.
  rewrite !recursive_calls_app. simpl.
  rewrite !recursive_calls_app. simpl.
  destruct (decide (n - 1 ≤ 1)) as [Hsmall | Hbig].
  { destruct (run_at_once _ _ _ _ _ _ H1) as [-> _]; [by left|].
    destruct (run_at_once _ _ _ _ _ _ H2) as [-> _]; [left; lia|].
    lia. }
  destruct (d !! (n - 1)) as [w|] eqn:Hprev.
  - destruct (run_at_once _ _ _ _ _ _ H1) as [-> _]; [right; eauto|].
    lia.
  - destruct (second_call_at_once _ _ _ _ _ _ _ _ _ H1 H2) as [-> _];
      [by right|]. lia.
Qed.

(** Some entry with a key in [[2, n]]: strictly fewer calls. *)
Lemma run_calls_lt depth n d r d' tr :
  fib_run l depth n d r d' tr →
  (∃ k, 2 ≤ k ≤ n ∧ is_Some (d !! k)) →
  match r with
  | Ok _ => (recursive_calls tr < Z.to_nat (2 * (n - 1)))%nat
  | Raise _ => True
  end.
Proof.
  induction 1 as
    [ | ? n d Hn | ? n d v Hn Hdn | ? n d e d1 t1 Hn Hdn H1 IH1
      | ? n d x d1 t1 e d2 t2 Hn Hdn H1 IH1 H2 IH2
      | ? n d x d1 t1 y d2 t2 Hn Hdn H1 IH1 H2 IH2 ];
    intros (k & Hk & Hdk); simpl; try done; try lia.
  assert (k ≠ n) by (intros ->; destruct Hdk; congruence).
  rewrite !recursive_calls_app. simpl.
  rewrite !recursive_calls_app. simpl.
  destruct (d !! (n - 1)) as [w|] eqn:Hprev.
  - destruct (run_at_once _ _ _ _ _ _ H1) as [-> ->]; [right; eauto|].
    pose proof (run_calls_le _ _ _ _ _ _ H2) as Hle. simpl in Hle.
    lia.
  - destruct (second_call_at_once _ _ _ _ _ _ _ _ _ H1 H2) as [-> _];
      [by right|].
    assert (k ≠ n - 1) by (intros ->; destruct Hdk; congruence).
    assert (recursive_calls t1 < Z.to_nat (2 * (n - 1 - 1)))%nat
      by (apply IH1; exists k; split; [lia | done]).
    lia.
Qed.

(** No entry with a key in [[2, n]]: exactly [2 (n - 1)] calls. *)
Lemma run_calls_eq depth n d r d' tr :
  fib_run l depth n d r d' tr →
  (∀ k, 2 ≤ k ≤ n → d !! k = None) →
  match r with
  | Ok _ => recursive_calls tr = Z.to_nat (2 * (n - 1))
  | Raise _ => True
  end.
Proof.
  induction 1 as
    [ | ? n d Hn | ? n d v Hn Hdn | ? n d e d1 t1 Hn Hdn H1 IH1
      | ? n d x d1 t1 e d2 t2 Hn Hdn H1 IH1 H2 IH2
      | ? n d x d1 t1 y d2 t2 Hn Hdn H1 IH1 H2 IH2 ];
    intros Hd; simpl; try done; try lia.
  { rewrite Hd in Hdn by lia. done. }
  rewrite !recursive_calls_app. simpl.
  rewrite !recursive_calls_app. simpl.
  destruct (second_call_at_once _ _ _ _ _ _ _ _ _ H1 H2) as [-> _].
  { destruct (decide (n - 1 ≤ 1)); [by left | right].
    apply Hd; lia. }
  rewrite IH1 by (intros; apply Hd; lia). lia.
Qed.
End Calls.

(** ** Runs of [fib] from the caller's side *)

Lemma frames_pos n : (1 ≤ frames n)%nat.
Proof. unfold frames. lia. Qed.

(** The base case, for either way of passing [memo]. *)
Lemma fib_base depth n memo w :
  n ≤ 1 →
  fib (S depth) n memo w
  = match memo with
    | Some _ => (Ok n, w, [])
    | None =>
        (Ok n, World (objects w ++ [∅]) (stdout w),
         [Alloc (length (objects w))])
    end.
Proof.
  intros Hn. cbn [fib].
  unfold mbind, py_bind, mret, py_ret, Py.bind, Py.ret, Py.new_dict.
  destruct memo; simpl; by rewrite (proj2 (Z.leb_le n 1) Hn).
Qed.

(** With the cache omitted and enough stack, [fib] returns [Fib n]. *)
Lemma fib_None_value depth n h out :
  0 ≤ n → (frames n ≤ depth)%nat →
  ∃ d' tr,
    fib depth n None (World h out)
    = (Ok (Fib n), World (h ++ [d']) out, Alloc (length h) :: tr)
    ∧ fib_run (length h) depth n ∅ (Ok (Fib n)) d' tr.
Proof.
  intros Hn Hdepth. pose proof (frames_pos n).
  destruct depth as [|depth]; [lia|].
  destruct (fib_None depth n h out) as (r & d' & tr & E & Hrun).
  destruct (run_returns _ _ _ _ _ _ Hrun Hdepth) as [v ->].
  destruct (run_correct _ _ _ _ _ _ Hrun) as [_ Hv].
  { intros k w _ Hw. by rewrite lookup_empty in Hw. }
  destruct (Hv v eq_refl) as [_ Hfib]. specialize (Hfib Hn). subst v.
  eauto.
Qed.

(** ** Concrete runs *)

Example fib_0 : outcome (fib 1 0 None (World [] "")) = Ok 0.
Proof. reflexivity. Qed.

Example fib_1 : outcome (fib 1 1 None (World [] "")) = Ok 1.
Proof. reflexivity. Qed.

Example fib_2 : outcome (fib 2 2 None (World [] "")) = Ok 1.
Proof. reflexivity. Qed.

Example fib_10 : outcome (fib 10 10 None (World [] "")) = Ok 55.
Proof. vm_compute. reflexivity. Qed.

Example fib_16 : outcome (fib 16 16 None (World [] "")) = Ok 987.
Proof. vm_compute. reflexivity. Qed.

(** The whole run of [fib(3)]: store, trace and value. *)
Example fib_3_run :
  fib 3 3 None (World [] "")
  = (Ok 2, World [{[ 2 := 1; 3 := 2 ]}] "",
     [Alloc 0%nat; Contains 0%nat 3 false;
      Call 2; Contains 0%nat 2 false;
      Call 1; Return 1; Call 0; Return 0;
      Store 0%nat 2 1; Load 0%nat 2 1; Return 1;
      Call 1; Return 1;
      Store 0%nat 3 2; Load 0%nat 3 2]).
Proof. vm_compute. reflexivity. Qed.

(** One activation short of [frames 16], the interpreter gives up. *)
Example fib_16_stack_too_small :
  outcome (fib 15 16 None (World [] "")) = Raise RecursionError.
Proof. vm_compute. reflexivity. Qed.

(** * The properties *)

(** C1. For every n >= 0, [fib(n)] called without a cache returns the
    n-th Fibonacci number of the recurrence F(0)=0, F(1)=1,
    F(n)=F(n-1)+F(n-2), whenever the interpreter allows [frames n]
    nested activations. *)
Theorem fib_correct depth n w :
  0 ≤ n → (frames n ≤ depth)%nat →
  outcome (fib depth n None w) = Ok (Fib n).
Proof.
  intros Hn Hdepth. destruct w as [h out].
  destruct (fib_None_value depth n h out Hn Hdepth) as (d' & tr & -> & _).
  reflexivity.
Qed.

Lemma fib_correct_witness :
  0 ≤ 10 ∧ (frames 10 ≤ 10)%nat
  ∧ outcome (fib 10 10 None (World [] "")) = Ok 55.
Proof.
  assert (0 ≤ 10) as H0 by lia.
  assert (frames 10 ≤ 10)%nat as H1 by (vm_compute; lia).
  split; [exact H0 | split; [exact H1|]].
  exact (fib_correct 10 10 (World [] "") H0 H1).
Defined.

(** C2, as the code has it. After [fib(n, memo)] on an empty dictionary
    has returned, every key k in [2, n] is in the dictionary and maps to
    F(k). *)
Theorem cache_filled_from_2 depth n (l : loc) h out :
  h !! l = Some ∅ → (frames n ≤ depth)%nat →
  ∀ k, 2 ≤ k ≤ n →
    ∃ d' : dict,
      objects (final (fib depth n (Some l) (World h out))) !! l = Some d'
      ∧ d' !! k = Some (Fib k).
Proof.
  intros Hl Hdepth k Hk.
  destruct (fib_Some depth n l h out ∅ Hl) as (r & d' & tr & -> & Hrun).
  destruct (run_returns _ _ _ _ _ _ Hrun Hdepth) as [v ->].
  exists d'. unfold final; simpl. split.
  { apply list_lookup_insert_eq. by eapply lookup_lt_Some. }
  destruct (run_fills _ _ _ _ _ _ Hrun) with (k := k) as [x Hx];
    [intros; apply lookup_empty | done |].
  destruct (run_correct _ _ _ _ _ _ Hrun) as [Hd' _].
  { intros ? ? _ Hw. by rewrite lookup_empty in Hw. }
  by rewrite (Hd' k x Hk Hx) in Hx.
Qed.

Lemma cache_filled_from_2_witness :
  ([∅ : dict] !! 0%nat = Some ∅) ∧ (frames 5 ≤ 5)%nat ∧ 2 ≤ 4 ≤ 5
  ∧ ∃ d' : dict,
      objects (final (fib 5 5 (Some 0%nat) (World [∅] ""))) !! 0%nat
      = Some d'
      ∧ d' !! 4 = Some (Fib 4).
Proof.
  assert ([∅ : dict] !! 0%nat = Some ∅) as H0 by reflexivity.
  assert (frames 5 ≤ 5)%nat as H1 by (vm_compute; lia).
  assert (2 ≤ 4 ≤ 5) as H2 by lia.
  split; [exact H0 | split; [exact H1 | split; [exact H2|]]].
  exact (cache_filled_from_2 5 5 0%nat [∅] "" H0 H1 4 H2).
Defined.

(** C2 as stated fails: after [fib(2, memo)] on an empty dictionary, key
    0, which lies in [0, 2], is not in the dictionary. *)
Lemma cache_lacks_key_0 :
  ¬ (∀ k, 0 ≤ k ≤ 2 →
       ∃ d' : dict,
         objects (final (fib 2 2 (Some 0%nat) (World [∅] ""))) !! 0%nat
         = Some d'
         ∧ d' !! k = Some (Fib k)).
Proof.
  intros H. destruct (H 0) as (d' & Hd' & Hk); [lia|].
  vm_compute in Hd'. injection Hd' as <-.
  vm_compute in Hk. discriminate.
Qed.

(** C3, as the code has it. For every n < 0, [fib(n)] raises nothing: it
    returns n itself, issues no recursive call and leaves a supplied
    dictionary as it was. *)
Theorem negative_returns_n depth n memo w :
  n < 0 →
  outcome (fib (S depth) n memo w) = Ok n
  ∧ recursive_calls (events (fib (S depth) n memo w)) = 0%nat
  ∧ ∀ l, memo = Some l → final (fib (S depth) n memo w) = w.
Proof.
  intros Hn. rewrite fib_base by lia.
  destruct memo; repeat split; try done.
Qed.

Lemma negative_returns_n_witness :
  -5 < 0
  ∧ outcome (fib 1 (-5) None (World [] "")) = Ok (-5)
  ∧ recursive_calls (events (fib 1 (-5) None (World [] ""))) = 0%nat.
Proof.
  assert (-5 < 0) as H0 by lia.
  split; [exact H0|].
  destruct (negative_returns_n 0 (-5) None (World [] "") H0) as (H1 & H2 & _).
  split; [exact H1 | exact H2].
Defined.

(** C3 as stated fails: [fib(-1)] raises no error, it returns -1. *)
Lemma negative_is_not_rejected :
  -1 < 0
  ∧ outcome (fib 1000 (-1) None (World [] "")) = Ok (-1)
  ∧ ¬ ∃ e, outcome (fib 1000 (-1) None (World [] "")) = Raise e.
Proof.
  split; [lia|]. split; [reflexivity|]. intros [e He]. discriminate He.
Qed.

(** C4. Run as a script with no input, [main.py] takes n = 16, computes
    [fib(16)], writes the one line [The 16th Fibonacci number is: 987]
    to standard output and exits with status 0 (16 nested activations
    of [fib] are enough). *)
Theorem main_prints depth :
  (16 ≤ depth)%nat →
  run_script depth = ("The 16th Fibonacci number is: 987" +:+ newline, 0).
Proof.
  intros Hdepth.
  destruct (fib_None_value depth 16 [] "") as (d' & tr & E & _);
    [lia | unfold frames; lia |].
  cbv [run_script main mbind py_bind Py.bind]. rewrite E.
  vm_compute. reflexivity.
Qed.

Lemma main_prints_witness :
  (16 ≤ 1000)%nat
  ∧ run_script 1000
    = ("The 16th Fibonacci number is: 987" +:+ newline, 0).
Proof.
  assert (16 ≤ 1000)%nat as H by lia.
  split; [exact H | exact (main_prints 1000 H)].
Defined.

Lemma fib_trace depth n memo h out (l : loc) (d : dict) :
  cache_at memo h = Some (l, d) →
  insert_only l (events (fib depth n memo (World h out))) d
  ∧ ((0 < depth)%nat →
     objects (final (fib depth n memo (World h out))) !! l
     = Some (replay (events (fib depth n memo (World h out))) d)).
Proof.
  intros Hc. destruct memo as [l0|]; simpl in Hc.
  - destruct (h !! l0) as [d0|] eqn:Hl; simplify_eq/=.
    destruct (fib_Some depth n l h out d Hl) as (r & d' & tr & -> & Hrun).
    destruct (run_trace _ _ _ _ _ _ Hrun) as [Hio <-].
    unfold events, final; simpl. split; [done|]. intros _.
    apply list_lookup_insert_eq. by eapply lookup_lt_Some.
  - simplify_eq. destruct depth as [|depth]; [split; [done | lia]|].
    destruct (fib_None depth n h out) as (r & d' & tr & -> & Hrun).
    destruct (run_trace _ _ _ _ _ _ Hrun) as [Hio <-].
    unfold events, final; simpl. split; [done|]. intros _.
    by rewrite lookup_app_r, Nat.sub_diag by lia.
Qed.

(** C5. During one call of [fib], on a supplied dictionary or on the one
    created when [memo] is omitted, the dictionary only gains entries:
    every store is to a key absent at that moment, what the dictionary
    holds at any moment is still there, unchanged, at any later moment
    and at the end, every read of a key after its store returns the
    stored value, and no key is stored twice. *)
Theorem cache_insert_only depth n memo h out (l : loc) (d : dict) :
  cache_at memo h = Some (l, d) →
  let run := fib depth n memo (World h out) in
  (∀ t1 l' k v t2,
     events run = t1 ++ Store l' k v :: t2 →
     l' = l ∧ replay t1 d !! k = None)
  ∧ (∀ t1 t2,
       events run = t1 ++ t2 →
       d ⊆ replay t1 d ∧ replay t1 d ⊆ replay (events run) d)
  ∧ (∀ t1 l1 k v t2 l2 w t3,
       events run = t1 ++ Store l1 k v :: t2 ++ Load l2 k w :: t3 →
       w = v)
  ∧ (∀ t1 l1 k v t2 l2 w t3,
       events run ≠ t1 ++ Store l1 k v :: t2 ++ Store l2 k w :: t3)
  ∧ ((0 < depth)%nat →
     objects (final run) !! l = Some (replay (events run) d)).
Proof.
  intros Hc run.
  destruct (fib_trace depth n memo h out l d Hc) as [Hio Hfinal].
  fold run in Hio, Hfinal.
  split; [|split; [|split; [|split]]].
  - intros. by eapply store_is_fresh.
  - intros. by eapply prefix_grows.
  - intros. by eapply load_after_store.
  - intros ? ? ? ? ? ? ? ? E. by eapply store_once.
  - done.
Qed.

Lemma cache_insert_only_witness :
  cache_at (Some 0%nat) [{[ 3 := 2 ]}] = Some (0%nat, {[ 3 := 2 ]})
  ∧ ∀ t1 l' k v t2,
      events (fib 5 5 (Some 0%nat) (World [{[ 3 := 2 ]}] ""))
      = t1 ++ Store l' k v :: t2 →
      l' = 0%nat ∧ replay t1 ({[ 3 := 2 ]} : dict) !! k = None.
Proof.
  assert (cache_at (Some 0%nat) [{[ 3 := 2 ]}]
          = Some (0%nat, ({[ 3 := 2 ]} : dict))) as H by reflexivity.
  split; [exact H|].
  exact (proj1 (cache_insert_only 5 5 (Some 0%nat) [{[ 3 := 2 ]}] ""
                  0%nat {[ 3 := 2 ]} H)).
Defined.

(** C7. For every n <= 1 and every store, [fib(n, memo)] returns n at
    once: it neither reads nor changes the dictionary, whatever the
    dictionary holds under the key n; and with [memo] omitted it returns
    n as well, so [fib(0) = 0] and [fib(1) = 1]. *)
Theorem base_case_ignores_cache depth n (l : loc) w :
  n ≤ 1 →
  fib (S depth) n (Some l) w = (Ok n, w, [])
  ∧ outcome (fib (S depth) n None w) = Ok n.
Proof.
  intros Hn. by rewrite !fib_base by done.
Qed.

Lemma base_case_ignores_cache_witness :
  1 ≤ 1
  ∧ fib 1 1 (Some 0%nat) (World [{[ 1 := 42 ]}] "")
    = (Ok 1, World [{[ 1 := 42 ]}] "", [])
  ∧ outcome (fib 1 1 None (World [{[ 1 := 42 ]}] "")) = Ok 1.
Proof.
  assert (1 ≤ 1) as H by lia.
  split; [exact H|].
  exact (base_case_ignores_cache 0 1 0%nat (World [{[ 1 := 42 ]}] "") H).
Defined.

(** C8. Calling [fib(n)] with [memo] omitted gives the same outcome on
    every call, whatever earlier calls left in the store: each call
    allocates its own empty dictionary, next to the ones already there,
    and the outcome is the one of [fib(n, memo)] on any empty dictionary
    supplied by the caller. *)
Theorem omitted_cache_is_fresh depth n w :
  let run1 := fib depth n None w in
  let run2 := fib depth n None (final run1) in
  (∀ w', outcome (fib depth n None w') = outcome run1)
  ∧ (∀ l : loc, objects w !! l = Some ∅ →
       outcome (fib depth n (Some l) w) = outcome run1)
  ∧ ((0 < depth)%nat →
     ∃ d1 : dict,
       objects (final run1) = objects w ++ [d1]
       ∧ objects (final run2) = objects w ++ [d1; d1]
       ∧ head (events run1) = Some (Alloc (length (objects w)))
       ∧ head (events run2) = Some (Alloc (S (length (objects w))))).
Proof.
  destruct w as [h out]. destruct depth as [|depth].
  { simpl. split; [done|]. split; [done | lia]. }
  destruct (fib_None depth n h out) as (r1 & d1 & t1 & E1 & Hrun1).
  destruct (fib_None depth n (h ++ [d1]) out)
    as (r2 & d2 & t2 & E2 & Hrun2).
  destruct (run_det _ _ _ _ _ _ _ Hrun1 _ _ _ _ Hrun2) as [-> ->].
  cbv zeta. rewrite E1. unfold final, outcome, events. cbn [fst snd].
  rewrite E2. cbn [fst snd objects head]. split; [|split].
  - intros [h' out'].
    destruct (fib_None depth n h' out') as (r3 & d3 & t3 & -> & Hrun3).
    by destruct (run_det _ _ _ _ _ _ _ Hrun1 _ _ _ _ Hrun3) as [-> _].
  - intros l Hl.
    destruct (fib_Some (S depth) n l h out ∅ Hl)
      as (r3 & d3 & t3 & -> & Hrun3).
    by destruct (run_det _ _ _ _ _ _ _ Hrun1 _ _ _ _ Hrun3) as [-> _].
  - intros _. exists d1. rewrite <- app_assoc.
    rewrite length_app, Nat.add_1_r. done.
Qed.

(** C6, as the code has it. Let the entries of the supplied dictionary
    with keys in [2, n] be correct Fibonacci values, n >= 0.  Then
    [fib(n, memo)] returns F(n), every entry that was in the dictionary
    is still there with the same value, and the call issues at most as
    many recursive calls as [fib(n)] on an empty dictionary: strictly
    fewer when the dictionary holds a key in [2, n], and as many when it
    holds none (entries under 0 and 1 are never looked up). *)
Theorem cache_reuse depth n (l : loc) h out (d : dict) :
  0 ≤ n → h !! l = Some d → correct_upto n d →
  (frames n ≤ depth)%nat →
  let run := fib depth n (Some l) (World h out) in
  let fresh := fib depth n None (World h out) in
  outcome run = Ok (Fib n)
  ∧ (∃ d' : dict, objects (final run) = <[l := d']> h ∧ d ⊆ d')
  ∧ (recursive_calls (events run) ≤ recursive_calls (events fresh))%nat
  ∧ ((∃ k, 2 ≤ k ≤ n ∧ is_Some (d !! k)) →
     (recursive_calls (events run) < recursive_calls (events fresh))%nat)
  ∧ ((∀ k, 2 ≤ k ≤ n → d !! k = None) →
     recursive_calls (events run) = recursive_calls (events fresh)).
Proof.
  intros Hn Hl Hd Hdepth.
  destruct (fib_Some depth n l h out d Hl) as (r & d' & tr & E & Hrun).
  destruct (run_returns _ _ _ _ _ _ Hrun Hdepth) as [v ->].
  destruct (run_correct _ _ _ _ _ _ Hrun Hd) as [_ Hv].
  destruct (Hv v eq_refl) as [_ Hfib]. specialize (Hfib Hn). subst v.
  destruct (fib_None_value depth n h out Hn Hdepth)
    as (d0 & tr0 & E0 & Hrun0).
  pose proof (run_calls_eq _ _ _ _ _ _ Hrun0) as Hfresh.
  simpl in Hfresh. specialize (Hfresh (λ k _, lookup_empty k)).
  cbv zeta. rewrite E, E0. unfold outcome, final, events.
  cbn [fst snd objects recursive_calls]. rewrite Hfresh.
  split; [done|]. split; [exists d'; split; [done | by eapply run_mono]|].
  split; [exact (run_calls_le _ _ _ _ _ _ Hrun)|].
  split.
  - intros Hk. exact (run_calls_lt _ _ _ _ _ _ Hrun Hk).
  - intros Hnone. exact (run_calls_eq _ _ _ _ _ _ Hrun Hnone).
Qed.

Lemma cache_reuse_witness :
  let run := fib 5 5 (Some 0%nat) (World [{[ 4 := 3 ]}] "") in
  let fresh := fib 5 5 None (World [{[ 4 := 3 ]}] "") in
  0 ≤ 5 ∧ [({[ 4 := 3 ]} : dict)] !! 0%nat = Some {[ 4 := 3 ]}
  ∧ (frames 5 ≤ 5)%nat
  ∧ outcome run = Ok (Fib 5)
  ∧ ((∃ k, 2 ≤ k ≤ 5 ∧ is_Some (({[ 4 := 3 ]} : dict) !! k)) →
     (recursive_calls (events run) < recursive_calls (events fresh))%nat).
Proof.
  cbv zeta.
  assert (0 ≤ 5) as H0 by lia.
  assert ([({[ 4 := 3 ]} : dict)] !! 0%nat = Some {[ 4 := 3 ]}) as H1
    by reflexivity.
  assert (correct_upto 5 {[ 4 := 3 ]}) as H2.
  { intros k v Hk Hkv. destruct (decide (k = 4)) as [-> | Hne].
    - rewrite lookup_singleton_eq in Hkv. by injection Hkv as <-.
    - by rewrite lookup_singleton_ne in Hkv. }
  assert (frames 5 ≤ 5)%nat as H3 by (vm_compute; lia).
  destruct (cache_reuse 5 5 0%nat [{[ 4 := 3 ]}] "" {[ 4 := 3 ]}
              H0 H1 H2 H3) as (R1 & _ & _ & R4 & _).
  split; [exact H0 | split; [exact H1 | split; [exact H3|]]].
  split; [exact R1 | exact R4].
Defined.

(** C6 as stated fails: with the dictionary {0: 0, 1: 1}, which holds
    correct entries for exactly the indices below 2, [fib(2, memo)]
    issues as many recursive calls as [fib(2)] on an empty one. *)
Lemma warm_cache_same_calls :
  let d : dict := {[ 0 := 0; 1 := 1 ]} in
  let run := fib 2 2 (Some 0%nat) (World [d] "") in
  let fresh := fib 2 2 None (World [d] "") in
  (∀ k, 0 ≤ k < 2 → d !! k = Some (Fib k))
  ∧ (∀ k v, d !! k = Some v → 0 ≤ k < 2 ∧ v = Fib k)
  ∧ outcome run = Ok (Fib 2)
  ∧ ¬ (recursive_calls (events run) < recursive_calls (events fresh))%nat.
Proof.
  cbv zeta. split; [|split; [|split]].
  - intros k Hk. assert (k = 0 ∨ k = 1) as [-> | ->] by lia; reflexivity.
  - intros k v Hkv.
    destruct (decide (k = 0)) as [-> | H0].
    { rewrite lookup_insert_eq in Hkv. injection Hkv as <-.
      split; [lia | reflexivity]. }
    rewrite lookup_insert_ne in Hkv by done.
    destruct (decide (k = 1)) as [-> | H1].
    { rewrite lookup_singleton_eq in Hkv. injection Hkv as <-.
      split; [lia | reflexivity]. }
    by rewrite lookup_singleton_ne in Hkv.
  - reflexivity.
  - vm_compute. lia.
Qed.

(** Either way of passing [memo], the call performs a run of [fib_run],
    preceded by the allocation when [memo] is omitted. *)
Lemma fib_any depth n memo w :
  live memo w →
  ∃ (l : loc) (d : dict) r (d' : dict) tr,
    fib_run l (S depth) n d r d' tr
    ∧ outcome (fib (S depth) n memo w) = r
    ∧ (events (fib (S depth) n memo w) = tr
       ∨ events (fib (S depth) n memo w) = Alloc l :: tr).
Proof.
  destruct w as [h out]. destruct memo as [l|]; cbn [live objects].
  - intros [d Hl].
    destruct (fib_Some (S depth) n l h out d Hl)
      as (r & d' & tr & E & Hrun).
    exists l, d, r, d', tr. rewrite E. eauto.
  - intros _.
    destruct (fib_None depth n h out) as (r & d' & tr & E & Hrun).
    exists (length h), ∅, r, d', tr. rewrite E. eauto.
Qed.

(** C9. [fib(n, memo)] terminates for every integer n, negative ones
    included: with [frames n] activations allowed it returns a value,
    and calls and returns are then matched; for n <= 1 it returns n at
    once, without any recursive call; and in every run each recursive
    call passes an argument strictly below its caller's. *)
Theorem fib_terminates depth n memo w :
  live memo w →
  ((frames n ≤ depth)%nat →
   ∃ v, outcome (fib depth n memo w) = Ok v
        ∧ nest [n] (events (fib depth n memo w)) = Some [n])
  ∧ (n ≤ 1 → (1 ≤ depth)%nat →
     outcome (fib depth n memo w) = Ok n
     ∧ recursive_calls (events (fib depth n memo w)) = 0%nat)
  ∧ is_Some (nest [n] (events (fib depth n memo w))).
Proof.
  intros Hlive. pose proof (frames_pos n).
  destruct depth as [|depth].
  { split; [lia|]. split; [lia|]. simpl. eauto. }
  destruct (fib_any depth n memo w Hlive)
    as (l & d & r & d' & tr & Hrun & Hr & Htr).
  pose proof (run_nest _ _ _ _ _ _ Hrun []) as Hnest.
  assert (nest [n] (events (fib (S depth) n memo w)) = nest [n] tr)
    as -> by (destruct Htr as [-> | ->]; done).
  split; [|split].
  - intros Hdepth.
    destruct (run_returns _ _ _ _ _ _ Hrun Hdepth) as [v ->]. eauto.
  - intros Hn _. rewrite fib_base by done. by destruct memo.
  - destruct r; [by rewrite Hnest | done].
Qed.

Lemma fib_terminates_witness :
  live None (World [] "")
  ∧ ((frames (-3) ≤ 1)%nat →
     ∃ v, outcome (fib 1 (-3) None (World [] "")) = Ok v
          ∧ nest [-3] (events (fib 1 (-3) None (World [] "")))
            = Some [-3]).
Proof.
  assert (live None (World [] "")) as H by exact I.
  split; [exact H|].
  exact (proj1 (fib_terminates 1 (-3) None (World [] "") H)).
Defined.

(** The dictionary left by a returning run on an empty one. *)
Lemma run_from_empty l depth n v (d' : dict) tr :
  fib_run l depth n ∅ (Ok v) d' tr →
  ∀ k, d' !! k = if decide (2 ≤ k ≤ n) then Some (Fib k) else None.
Proof.
  intros Hrun k. case_decide as Hk.
  - destruct (run_fills _ _ _ _ _ _ Hrun) with (k := k) as [x Hx];
      [intros; apply lookup_empty | done |].
    destruct (run_correct _ _ _ _ _ _ Hrun) as [Hd' _].
    { intros ? ? _ Hw. by rewrite lookup_empty in Hw. }
    by rewrite (Hd' k x Hk Hx) in Hx.
  - rewrite (run_frame _ _ _ _ _ _ Hrun) by lia. apply lookup_empty.
Qed.

(** C10. For every n >= 2, after [fib(n, memo)] on an empty dictionary
    has returned, the keys of the dictionary are exactly 2, 3, ..., n:
    0 and 1 are not stored, and each key k in [2, n] maps to F(k). *)
Theorem cache_keys_exactly depth n (l : loc) h out :
  2 ≤ n → h !! l = Some ∅ → (frames n ≤ depth)%nat →
  ∃ d' : dict,
    objects (final (fib depth n (Some l) (World h out))) = <[l := d']> h
    ∧ dom d' = list_to_set (seqZ 2 (n - 1))
    ∧ d' !! 0 = None ∧ d' !! 1 = None
    ∧ ∀ k, 2 ≤ k ≤ n → d' !! k = Some (Fib k).
Proof.
  intros Hn Hl Hdepth.
  destruct (fib_Some depth n l h out ∅ Hl) as (r & d' & tr & -> & Hrun).
  destruct (run_returns _ _ _ _ _ _ Hrun Hdepth) as [v ->].
  pose proof (run_from_empty _ _ _ _ _ _ Hrun) as Hd'.
  exists d'. split; [done|]. split; [|split; [|split]].
  - apply set_eq. intros k.
    rewrite elem_of_dom, elem_of_list_to_set, elem_of_seqZ, Hd'.
    case_decide as Hk.
    + split; [lia | eauto].
    + split; [by intros [? ?] | lia].
  - rewrite Hd'. by rewrite decide_False by lia.
  - rewrite Hd'. by rewrite decide_False by lia.
  - intros k Hk. rewrite Hd'. by rewrite decide_True.
Qed.

Lemma cache_keys_exactly_witness :
  2 ≤ 4 ∧ [∅ : dict] !! 0%nat = Some ∅ ∧ (frames 4 ≤ 4)%nat
  ∧ ∃ d' : dict,
      objects (final (fib 4 4 (Some 0%nat) (World [∅] "")))
      = <[0%nat := d']> [∅]
      ∧ dom d' = list_to_set (seqZ 2 (4 - 1))
      ∧ d' !! 0 = None ∧ d' !! 1 = None
      ∧ ∀ k, 2 ≤ k ≤ 4 → d' !! k = Some (Fib k).
Proof.
  assert (2 ≤ 4) as H0 by lia.
  assert ([∅ : dict] !! 0%nat = Some ∅) as H1 by reflexivity.
  assert (frames 4 ≤ 4)%nat as H2 by (vm_compute; lia).
  split; [exact H0 | split; [exact H1 | split; [exact H2|]]].
  exact (cache_keys_exactly 4 4 0%nat [∅] "" H0 H1 H2).
Defined.

(** * Further properties of [fib] and [main] *)

(** ** More about runs *)

Lemma stores_app t1 t2 :
  stores (t1 ++ t2) = (stores t1 + stores t2)%nat.
Proof.
  induction t1 as [|[] t1 IH]; simpl; auto.
Qed.

Section MoreRuns.
Context {l : loc}.
Implicit Types (d : dict) (r : result Z) (tr : list event).

(** A base case or a hit, whatever the outcome is claimed to be. *)
Lemma run_shortcut depth n d r d' tr v :
  fib_run l (S depth) n d r d' tr →
  known d n = Some v →
  r = Ok v ∧ d' = d
  ∧ tr = (if decide (n ≤ 1) then []
          else [Contains l n true; Load l n v]).
Proof.
  unfold known. intros Hrun Hv.
  inversion Hrun; subst; case_decide; simplify_eq; eauto; lia.
Qed.

(** What a returning run leaves for its own index. *)
Lemma run_known depth n d v d' tr :
  fib_run l depth n d (Ok v) d' tr → known d' n = Some v.
Proof.
  unfold known. intros Hrun. case_decide as Hn.
  - inversion Hrun; subst; [done | lia..].
  - eapply run_stored; [exact Hrun | lia].
Qed.

(** Only [RecursionError] is ever raised, and a run that raises has not
    stored anything. *)
Lemma run_raises depth n d r d' tr :
  fib_run l depth n d r d' tr →
  match r with
  | Ok _ => True
  | Raise e => e = RecursionError ∧ d' = d
  end.
Proof.
  induction 1 as
    [ | ? n d Hn | ? n d v Hn Hdn | ? n d e d1 t1 Hn Hdn H1 IH1
      | ? n d x d1 t1 e d2 t2 Hn Hdn H1 IH1 H2 IH2
      | ? n d x d1 t1 y d2 t2 Hn Hdn H1 IH1 H2 IH2 ];
    try done.
  destruct IH2 as [-> ->]. split; [done|].
  destruct depth as [|depth]; [inversion H1|].
  destruct (decide (n - 1 ≤ 1 ∨ is_Some (d !! (n - 1)))) as [Hc | Hc].
  { eapply run_at_once; [exact H1 | done]. }
  assert (d !! (n - 1) = None) as Hprev.
  { destruct (d !! (n - 1)) eqn:E; [|done]. destruct Hc; eauto. }
  assert (is_Some (known d1 (n - 2))) as [w Hw].
  { unfold known. case_decide; [eauto|].
    replace (n - 2) with (n - 1 - 1) by lia.
    eapply run_miss_below; [exact H1 | done | lia]. }
  by destruct (run_shortcut _ _ _ _ _ _ _ H2 Hw) as [? _].
Qed.

(** Without an entry in [[2, n]] to stop the descent, fewer than
    [frames n] activations are not enough. *)
Lemma run_needs_frames depth n d r d' tr :
  fib_run l depth n d r d' tr →
  (∀ k, 2 ≤ k ≤ n → d !! k = None) →
  (depth < frames n)%nat →
  r = Raise RecursionError.
Proof.
  unfold frames.
  induction 1 as
    [ | ? n d Hn | ? n d v Hn Hdn | ? n d e d1 t1 Hn Hdn H1 IH1
      | ? n d x d1 t1 e d2 t2 Hn Hdn H1 IH1 H2 IH2
      | ? n d x d1 t1 y d2 t2 Hn Hdn H1 IH1 H2 IH2 ];
    intros Hd Hdepth; try done; try lia.
  - rewrite Hd in Hdn by lia. done.
  - apply IH1; [intros; apply Hd; lia | lia].
  - discriminate IH1; [intros; apply Hd; lia | lia].
  - discriminate IH1; [intros; apply Hd; lia | lia].
Qed.

(** A run that returns is a run at every larger depth. *)
Lemma run_deepen depth n d r d' tr :
  fib_run l depth n d r d' tr →
  ∀ v, r = Ok v →
  ∀ depth', (depth ≤ depth')%nat → fib_run l depth' n d r d' tr.
Proof.
  induction 1 as
    [ | ? n d Hn | ? n d v Hn Hdn | ? n d e d1 t1 Hn Hdn H1 IH1
      | ? n d x d1 t1 e d2 t2 Hn Hdn H1 IH1 H2 IH2
      | ? n d x d1 t1 y d2 t2 Hn Hdn H1 IH1 H2 IH2 ];
    intros v' Hr [|depth'] Hle; try done; try lia.
  - by constructor.
  - by constructor.
  - econstructor; [done | done | |].
    + eapply IH1; [done | lia].
    + eapply IH2; [done | lia].
Qed.

(** On the same reference, the run is unique, trace included. *)
Lemma run_unique depth n d r d' tr :
  fib_run l depth n d r d' tr →
  ∀ r2 d2 tr2, fib_run l depth n d r2 d2 tr2 →
    r2 = r ∧ d2 = d' ∧ tr2 = tr.
Proof.
  induction 1 as
    [ | ? n d Hn | ? n d v Hn Hdn | ? n d e d1 t1 Hn Hdn H1 IH1
      | ? n d x d1 t1 e d2 t2 Hn Hdn H1 IH1 H2 IH2
      | ? n d x d1 t1 y d2 t2 Hn Hdn H1 IH1 H2 IH2 ];
    intros r2 d2' tr2 H'; inversion H'; subst;
    try lia; try congruence; try done;
    repeat match goal with
      | IH : ∀ r2 d2 tr2, fib_run _ ?dep ?m ?d0 r2 d2 tr2 → _,
        H : fib_run _ ?dep ?m ?d0 _ _ _ |- _ =>
          apply IH in H; destruct H as (? & ? & ?); simplify_eq
      end;
    repeat split; congruence.
Qed.

(** Every entry a run adds is the sum of what the final dictionary
    gives for the two indices below, whatever the dictionary held. *)
Lemma run_recurrence depth n d r d' tr :
  fib_run l depth n d r d' tr →
  ∀ k, d !! k = None → is_Some (d' !! k) →
    ∃ a b, known d' (k - 1) = Some a ∧ known d' (k - 2) = Some b
           ∧ d' !! k = Some (a + b).
Proof.
  assert (∀ (d1 d2 : dict) j a,
            d1 ⊆ d2 → known d1 j = Some a → known d2 j = Some a) as Hup.
  { unfold known. intros d1 d2 j a Hsub. case_decide; [done|].
    intros Hj. by eapply lookup_weaken. }
  assert (∀ depth m d0 z d1 t,
            fib_run l depth m d0 (Ok z) d1 t → known d1 m = Some z) as Hval.
  { unfold known. intros ? m ? z ? ? Hrun. case_decide as Hm.
    - inversion Hrun; subst; [done | lia..].
    - eapply run_stored; [exact Hrun | lia]. }
  induction 1 as
    [ | ? n d Hn | ? n d v Hn Hdn | ? n d e d1 t1 Hn Hdn H1 IH1
      | ? n d x d1 t1 e d2 t2 Hn Hdn H1 IH1 H2 IH2
      | ? n d x d1 t1 y d2 t2 Hn Hdn H1 IH1 H2 IH2 ];
    intros k Hk [w Hw]; try congruence.
  - apply IH1; eauto.
  - pose proof (run_raises _ _ _ _ _ _ H2) as [_ ->].
    apply IH1; eauto.
  - pose proof (run_mono _ _ _ _ _ _ H1) as Hs1.
    pose proof (run_mono _ _ _ _ _ _ H2) as Hs2.
    assert (d2 !! n = None) as Hfresh.
    { rewrite (run_frame _ _ _ _ _ _ H2), (run_frame _ _ _ _ _ _ H1);
        [done | lia..]. }
    assert (d2 ⊆ <[n := x + y]> d2) as Hs3 by by apply insert_subseteq.
    destruct (decide (k = n)) as [-> | Hne].
    { exists x, y. rewrite lookup_insert_eq. split; [|split; [|done]].
      - eapply Hup; [|by eapply Hval]. by etrans.
      - eapply Hup; [|by eapply Hval]. done. }
    rewrite lookup_insert_ne in Hw by done.
    destruct (d1 !! k) as [w1|] eqn:Hk1.
    + destruct (IH1 k Hk) as (a & b & Ha & Hb & Hab); [by eauto|].
      exists a, b. split; [|split].
      * eapply Hup; [|exact Ha]. by etrans.
      * eapply Hup; [|exact Hb]. by etrans.
      * eapply lookup_weaken; [exact Hab|]. by etrans.
    + destruct (IH2 k Hk1) as (a & b & Ha & Hb & Hab); [by eauto|].
      exists a, b. split; [|split].
      * by eapply Hup.
      * by eapply Hup.
      * by eapply lookup_weaken.
Qed.

(** From a dictionary without keys in [[2, n]], a returning run stores
    once per index from 2 to n. *)
Lemma run_stores_eq depth n d r d' tr :
  fib_run l depth n d r d' tr →
  (∀ k, 2 ≤ k ≤ n → d !! k = None) →
  match r with
  | Ok _ => stores tr = Z.to_nat (n - 1)
  | Raise _ => True
  end.
Proof.
  induction 1 as
    [ | ? n d Hn | ? n d v Hn Hdn | ? n d e d1 t1 Hn Hdn H1 IH1
      | ? n d x d1 t1 e d2 t2 Hn Hdn H1 IH1 H2 IH2
      | ? n d x d1 t1 y d2 t2 Hn Hdn H1 IH1 H2 IH2 ];
    intros Hd; simpl; try done; try lia.
  { rewrite Hd in Hdn by lia. done. }
  rewrite !stores_app. simpl. rewrite !stores_app. simpl.
  assert (stores t2 = 0%nat) as ->.
  { destruct depth as [|depth]; [inversion H1|].
    assert (is_Some (known d1 (n - 2))) as [w Hw].
    { unfold known. case_decide; [eauto|].
      replace (n - 2) with (n - 1 - 1) by lia.
      eapply run_miss_below; [exact H1 | apply Hd; lia | lia]. }
    destruct (run_shortcut _ _ _ _ _ _ _ H2 Hw) as (_ & _ & ->).
    by case_decide. }
  rewrite IH1 by (intros; apply Hd; lia). lia.
Qed.
End MoreRuns.

(** ** More about calls, from the caller's side *)

(** Whichever way [memo] is passed, the call performs a run on the
    dictionary [cache_at] names; the counts ignore the allocation. *)
Lemma fib_cache depth n memo h out (l : loc) (d : dict) :
  cache_at memo h = Some (l, d) →
  ∃ r (d' : dict) tr,
    fib_run l depth n d r d' tr
    ∧ outcome (fib depth n memo (World h out)) = r
    ∧ recursive_calls (events (fib depth n memo (World h out)))
      = recursive_calls tr
    ∧ stores (events (fib depth n memo (World h out))) = stores tr.
Proof.
  intros Hc. destruct memo as [l0|]; cbn [cache_at] in Hc.
  - destruct (h !! l0) as [d0|] eqn:Hl; simplify_eq/=.
    destruct (fib_Some depth n l h out d Hl) as (r & d' & tr & -> & Hrun).
    by exists r, d', tr.
  - simplify_eq. destruct depth as [|depth].
    { exists (Raise RecursionError), ∅, []. split; [constructor | done]. }
    destruct (fib_None depth n h out) as (r & d' & tr & -> & Hrun).
    by exists r, d', tr.
Qed.

(** With [memo] omitted, the output is as before the call. *)
Lemma fib_None_stdout depth n w :
  stdout (final (fib depth n None w)) = stdout w.
Proof.
  destruct w as [h out]. destruct depth as [|depth]; [done|].
  by destruct (fib_None depth n h out) as (r & d' & tr & -> & _).
Qed.

(** X1. [fib] never raises [KeyError]: on a dictionary of the store, or
    with [memo] omitted, the only exception a call can end with is
    [RecursionError]. *)
Theorem fib_raises_only_recursion_error depth n memo w e :
  live memo w →
  outcome (fib depth n memo w) = Raise e →
  e = RecursionError.
Proof.
  intros Hlive He. destruct w as [h out].
  assert (∃ l d, cache_at memo h = Some (l, d)) as (l & d & Hc).
  { destruct memo as [l|]; cbn [live objects cache_at] in *;
      [destruct Hlive as [d ->]|]; eauto. }
  destruct (fib_cache depth n memo h out l d Hc)
    as (r & d' & tr & Hrun & Hr & _).
  rewrite He in Hr. subst r.
  by destruct (run_raises _ _ _ _ _ _ Hrun).
Qed.

Lemma fib_raises_only_recursion_error_witness :
  live (Some 0%nat) (World [{[ 7 := 13 ]}] "")
  ∧ outcome (fib 2 9 (Some 0%nat) (World [{[ 7 := 13 ]}] ""))
    = Raise RecursionError
  ∧ RecursionError = RecursionError.
Proof.
  assert (live (Some 0%nat) (World [{[ 7 := 13 ]}] "")) as H0
    by (eexists; reflexivity).
  assert (outcome (fib 2 9 (Some 0%nat) (World [{[ 7 := 13 ]}] ""))
          = Raise RecursionError) as H1 by reflexivity.
  split; [exact H0 | split; [exact H1|]].
  exact (fib_raises_only_recursion_error 2 9 (Some 0%nat)
           (World [{[ 7 := 13 ]}] "") RecursionError H0 H1).
Defined.

(** X2. A call of [fib] on a supplied dictionary that ends with an
    exception has written nothing: the store and the output are exactly
    as before the call. *)
Theorem fib_failure_writes_nothing depth n (l : loc) w e :
  is_Some (objects w !! l) →
  outcome (fib depth n (Some l) w) = Raise e →
  final (fib depth n (Some l) w) = w.
Proof.
  intros [d Hl] He. destruct w as [h out]. cbn [objects] in Hl.
  destruct (fib_Some depth n l h out d Hl) as (r & d' & tr & E & Hrun).
  rewrite E in He |- *. unfold outcome, final in *. cbn [fst snd] in *.
  subst r. destruct (run_raises _ _ _ _ _ _ Hrun) as [_ ->].
  by rewrite list_insert_id.
Qed.

Lemma fib_failure_writes_nothing_witness :
  is_Some (objects (World [{[ 4 := 3 ]}] "") !! 0%nat)
  ∧ outcome (fib 2 6 (Some 0%nat) (World [{[ 4 := 3 ]}] ""))
    = Raise RecursionError
  ∧ final (fib 2 6 (Some 0%nat) (World [{[ 4 := 3 ]}] ""))
    = World [{[ 4 := 3 ]}] "".
Proof.
  assert (is_Some (objects (World [{[ 4 := 3 ]}] "") !! 0%nat)) as H0
    by (eexists; reflexivity).
  assert (outcome (fib 2 6 (Some 0%nat) (World [{[ 4 := 3 ]}] ""))
          = Raise RecursionError) as H1 by reflexivity.
  split; [exact H0 | split; [exact H1|]].
  exact (fib_failure_writes_nothing 2 6 0%nat (World [{[ 4 := 3 ]}] "")
           RecursionError H0 H1).
Defined.



(** X4. Calling [fib(n, memo)] again on the dictionary a returning call
    has left gives the same value at once: no recursive call, no store,
    the store unchanged; from 2 on the value is read from the entry of
    n. *)
Theorem fib_again depth n (l : loc) h out (d : dict) v :
  h !! l = Some d →
  outcome (fib depth n (Some l) (World h out)) = Ok v →
  let w1 := final (fib depth n (Some l) (World h out)) in
  fib depth n (Some l) w1
  = (Ok v, w1,
     if decide (n ≤ 1) then [] else [Contains l n true; Load l n v]).
Proof.
  intros Hl Hv.
  pose proof (lookup_lt_Some _ _ _ Hl) as Hlt.
  destruct (fib_Some depth n l h out d Hl) as (r & d' & tr & E & Hrun).
  rewrite E in Hv |- *. unfold outcome, final in *. cbn [fst snd] in *.
  subst r. destruct depth as [|depth]; [inversion Hrun|].
  destruct (fib_Some_live (S depth) n l h out d' Hlt)
    as (r2 & d2 & tr2 & -> & Hrun2).
  destruct (run_shortcut _ _ _ _ _ _ _ Hrun2 (run_known _ _ _ _ _ _ Hrun))
    as (-> & -> & ->).
  reflexivity.
Qed.

Lemma fib_again_witness :
  [({[ 3 := 7 ]} : dict)] !! 0%nat = Some {[ 3 := 7 ]}
  ∧ outcome (fib 4 5 (Some 0%nat) (World [{[ 3 := 7 ]}] "")) = Ok 15
  ∧ fib 4 5 (Some 0%nat)
      (final (fib 4 5 (Some 0%nat) (World [{[ 3 := 7 ]}] "")))
    = (Ok 15, final (fib 4 5 (Some 0%nat) (World [{[ 3 := 7 ]}] "")),
       [Contains 0%nat 5 true; Load 0%nat 5 15]).
Proof.
  assert ([({[ 3 := 7 ]} : dict)] !! 0%nat = Some {[ 3 := 7 ]}) as H0
    by reflexivity.
  assert (outcome (fib 4 5 (Some 0%nat) (World [{[ 3 := 7 ]}] ""))
          = Ok 15) as H1 by reflexivity.
  split; [exact H0 | split; [exact H1|]].
  exact (fib_again 4 5 0%nat [{[ 3 := 7 ]}] "" {[ 3 := 7 ]} 15 H0 H1).
Defined.



(** X6. A returning call [fib(n)] issues at most 2 (n - 1) recursive
    calls, whatever the dictionary holds; on a dictionary without keys
    in [2, n], in particular with [memo] omitted, it issues exactly
    2 (n - 1) recursive calls and stores exactly n - 1 entries (none of
    either for n <= 1). *)
Theorem fib_is_linear depth n memo h out (l : loc) (d : dict) v :
  cache_at memo h = Some (l, d) →
  outcome (fib depth n memo (World h out)) = Ok v →
  let tr := events (fib depth n memo (World h out)) in
  (recursive_calls tr ≤ Z.to_nat (2 * (n - 1)))%nat
  ∧ ((∀ k, 2 ≤ k ≤ n → d !! k = None) →
     recursive_calls tr = Z.to_nat (2 * (n - 1))
     ∧ stores tr = Z.to_nat (n - 1)).
Proof.
  intros Hc Hv.
  destruct (fib_cache depth n memo h out l d Hc)
    as (r & d' & tr & Hrun & Hr & Hcalls & Hstores).
  rewrite Hv in Hr. subst r. cbv zeta. rewrite Hcalls, Hstores.
  split; [exact (run_calls_le _ _ _ _ _ _ Hrun)|].
  intros Hd. split.
  - exact (run_calls_eq _ _ _ _ _ _ Hrun Hd).
  - exact (run_stores_eq _ _ _ _ _ _ Hrun Hd).
Qed.

Lemma fib_is_linear_witness :
  cache_at None [] = Some (0%nat, ∅)
  ∧ outcome (fib 16 16 None (World [] "")) = Ok 987
  ∧ (recursive_calls (events (fib 16 16 None (World [] "")))
     ≤ Z.to_nat (2 * (16 - 1)))%nat.
Proof.
  assert (cache_at None [] = Some (0%nat, ∅)) as H0 by reflexivity.
  assert (outcome (fib 16 16 None (World [] "")) = Ok 987) as H1
    by (vm_compute; reflexivity).
  split; [exact H0 | split; [exact H1|]].
  exact (proj1 (fib_is_linear 16 16 None [] "" 0%nat ∅ 987 H0 H1)).
Defined.

(** X7. A result that [fib] returns does not depend on how many nested
    activations the interpreter allows: with a larger allowance the
    call returns the same value, leaves the same store and performs the
    same operations. *)
Theorem fib_depth_irrelevant depth depth' n memo w v :
  live memo w →
  outcome (fib depth n memo w) = Ok v →
  (depth ≤ depth')%nat →
  fib depth' n memo w = fib depth n memo w.
Proof.
  intros Hlive Hv Hle. destruct w as [h out].
  destruct memo as [l|]; cbn [live objects] in Hlive.
  - destruct Hlive as [d Hl].
    destruct (fib_Some depth n l h out d Hl) as (r & d' & tr & E & Hrun).
    destruct (fib_Some depth' n l h out d Hl)
      as (r2 & d2 & tr2 & E2 & Hrun2).
    rewrite E in Hv |- *. unfold outcome in Hv. cbn [fst] in Hv. subst r.
    rewrite E2.
    pose proof (run_deepen _ _ _ _ _ _ Hrun v eq_refl depth' Hle) as Hdeep.
    by destruct (run_unique _ _ _ _ _ _ Hdeep _ _ _ Hrun2)
      as (-> & -> & ->).
  - destruct depth as [|depth]; [discriminate Hv|].
    destruct depth' as [|depth']; [lia|].
    destruct (fib_None depth n h out) as (r & d' & tr & E & Hrun).
    destruct (fib_None depth' n h out) as (r2 & d2 & tr2 & E2 & Hrun2).
    rewrite E in Hv |- *. unfold outcome in Hv. cbn [fst] in Hv. subst r.
    rewrite E2.
    assert (S depth ≤ S depth')%nat as Hle' by lia.
    pose proof (run_deepen _ _ _ _ _ _ Hrun v eq_refl _ Hle') as Hdeep.
    by destruct (run_unique _ _ _ _ _ _ Hdeep _ _ _ Hrun2)
      as (-> & -> & ->).
Qed.

Lemma fib_depth_irrelevant_witness :
  live None (World [] "")
  ∧ outcome (fib 10 10 None (World [] "")) = Ok 55
  ∧ (10 ≤ 1000)%nat
  ∧ fib 1000 10 None (World [] "") = fib 10 10 None (World [] "").
Proof.
  assert (live None (World [] "")) as H0 by exact I.
  assert (outcome (fib 10 10 None (World [] "")) = Ok 55) as H1
    by (vm_compute; reflexivity).
  assert (10 ≤ 1000)%nat as H2 by lia.
  split; [exact H0 | split; [exact H1 | split; [exact H2|]]].
  exact (fib_depth_irrelevant 10 1000 10 None (World [] "") 55 H0 H1 H2).
Defined.

(** X8. [fib] writes nothing to standard output and changes no
    dictionary other than [memo]: every other dictionary of the store
    is the same after the call, and with [memo] omitted so is every
    dictionary that was in the store. *)
Theorem fib_touches_only_memo depth n memo w :
  live memo w →
  stdout (final (fib depth n memo w)) = stdout w
  ∧ ∀ (l' : loc) (d : dict),
      memo ≠ Some l' → objects w !! l' = Some d →
      objects (final (fib depth n memo w)) !! l' = Some d.
Proof.
  intros Hlive. destruct w as [h out].
  destruct memo as [l|]; cbn [live objects stdout] in *.
  - destruct Hlive as [d Hl].
    destruct (fib_Some depth n l h out d Hl) as (r & d' & tr & -> & _).
    unfold final. cbn [fst snd objects stdout]. split; [done|].
    intros l' d0 Hne Hl'.
    rewrite list_lookup_insert_ne by congruence. done.
  - destruct depth as [|depth]; [done|].
    destruct (fib_None depth n h out) as (r & d' & tr & -> & _).
    unfold final. cbn [fst snd objects stdout]. split; [done|].
    intros l' d0 _ Hl'. by apply lookup_app_l_Some.
Qed.

Lemma fib_touches_only_memo_witness :
  live (Some 1%nat) (World [{[ 9 := 9 ]}; ∅] "log")
  ∧ stdout (final (fib 5 5 (Some 1%nat) (World [{[ 9 := 9 ]}; ∅] "log")))
    = "log".
Proof.
  assert (live (Some 1%nat) (World [{[ 9 := 9 ]}; ∅] "log")) as H0
    by (eexists; reflexivity).
  split; [exact H0|].
  exact (proj1 (fib_touches_only_memo 5 5 (Some 1%nat)
                  (World [{[ 9 := 9 ]}; ∅] "log") H0)).
Defined.

(** X9. Whatever the supplied dictionary holds, right or wrong, every
    entry that a call of [fib(n, memo)] adds has its key in [2, n] and
    is the sum of what the final dictionary gives for the two indices
    below it (the index itself under 0 and 1, the entry otherwise). *)
Theorem fib_entries_are_sums depth n (l : loc) h out (d : dict) :
  h !! l = Some d →
  ∃ d' : dict,
    objects (final (fib depth n (Some l) (World h out))) !! l = Some d'
    ∧ ∀ k, d !! k = None → is_Some (d' !! k) →
        2 ≤ k ≤ n
        ∧ ∃ a b, known d' (k - 1) = Some a ∧ known d' (k - 2) = Some b
                 ∧ d' !! k = Some (a + b).
Proof.
  intros Hl.
  destruct (fib_Some depth n l h out d Hl) as (r & d' & tr & -> & Hrun).
  exists d'. unfold final. cbn [fst snd objects]. split.
  { apply list_lookup_insert_eq. by eapply lookup_lt_Some. }
  intros k Hk Hk'. split.
  - destruct (decide (2 ≤ k ≤ n)) as [|Hout]; [done|].
    rewrite (run_frame _ _ _ _ _ _ Hrun), Hk in Hk' by lia.
    by destruct Hk'.
  - by eapply run_recurrence.
Qed.

Lemma fib_entries_are_sums_witness :
  [({[ 3 := 7 ]} : dict)] !! 0%nat = Some {[ 3 := 7 ]}
  ∧ ∃ d' : dict,
      objects (final (fib 5 5 (Some 0%nat) (World [{[ 3 := 7 ]}] "")))
        !! 0%nat = Some d'
      ∧ ∀ k, ({[ 3 := 7 ]} : dict) !! k = None → is_Some (d' !! k) →
          2 ≤ k ≤ 5
          ∧ ∃ a b, known d' (k - 1) = Some a ∧ known d' (k - 2) = Some b
                   ∧ d' !! k = Some (a + b).
Proof.
  assert ([({[ 3 := 7 ]} : dict)] !! 0%nat = Some {[ 3 := 7 ]}) as H0
    by reflexivity.
  split; [exact H0|].
  exact (fib_entries_are_sums 5 5 0%nat [{[ 3 := 7 ]}] "" {[ 3 := 7 ]} H0).
Defined.

(** X10. [main] prints only after [fib(16)] has returned: with fewer
    than 16 nested activations allowed the script writes nothing to
    standard output and ends with the uncaught exception (status 1). *)
Theorem main_needs_16_frames depth :
  (depth < 16)%nat → run_script depth = ("", 1).
Proof.
  intros Hdepth.
  assert (fib depth 16 None (World [] "")
          = (Raise RecursionError, final (fib depth 16 None (World [] "")),
             events (fib depth 16 None (World [] "")))) as E.
  { destruct (fib_cache depth 16 None [] "" 0%nat ∅ eq_refl)
      as (r & d' & tr & Hrun & Hr & _).
    rewrite (run_needs_frames _ _ _ _ _ _ Hrun) in Hr;
      [| intros; apply lookup_empty | unfold frames; lia].
    destruct (fib depth 16 None (World [] "")) as [[r0 w0] t0].
    unfold outcome in Hr. cbn [fst] in Hr. by subst r0. }
  pose proof (fib_None_stdout depth 16 (World [] "")) as Hout.
  cbv [run_script main mbind py_bind Py.bind]. rewrite E.
  by rewrite Hout.
Qed.

Lemma main_needs_16_frames_witness :
  (15 < 16)%nat ∧ run_script 15 = ("", 1).
Proof.
  assert (15 < 16)%nat as H by lia.
  split; [exact H | exact (main_needs_16_frames 15 H)].
Defined.
